(** * liberror: the exception object and its lazily rendered message

    A shallow embedding of [include/liberror/exception.h]:
    - [ErrorInfo] and the five constructors of [Exception];
    - [Exception::what], with the in-place assembly of [message_], the
      hexadecimal loop and the [try]/[catch] around it;
    - the two platform variants of [SystemException].

    [std::string] is not part of the repository; it is modelled in
    [Module StdString] with the guarantees of the C++ standard: an
    operation that has to grow the storage may throw, and a throwing
    operation has no effect on the string. *)

From Stdlib Require Import ZArith List String Ascii Bool Lia Arith.
Import ListNotations.

Local Open Scope string_scope.

(** ** Exceptions of the standard library, as far as [what()] shows them *)

Record std_exception := mk_exception { ex_what : string }.

Definition bad_alloc : std_exception := mk_exception "std::bad_alloc".
Definition length_error : std_exception := mk_exception "basic_string::_M_create".

(** ** The build target

    [sizeof_error_code] is [sizeof(error_code_type)]: 4 for [DWORD], and
    [sizeof(int)] on Linux and macOS.  The other fields describe the
    standard library's [std::string]: the capacity of an empty string, and
    the capacity chosen when the storage grows from [cap] to hold [n]
    characters, which is never less than [n]. *)

Class Target := {
  sizeof_error_code : nat;
  initial_capacity : nat;
  grown_capacity : nat -> nat -> nat;
  grown_capacity_fits : forall cap n, n <= grown_capacity cap n
}.

(** libstdc++: 15 characters are stored in place, and [_M_create] at
    least doubles the capacity. *)
Definition libstdcxx_growth (cap n : nat) : nat := Nat.max n (2 * cap).

(** libstdc++ on a target with a 4-byte error code. *)
#[export] Instance libstdcxx_int32 : Target := {|
  sizeof_error_code := 4;
  initial_capacity := 15;
  grown_capacity := libstdcxx_growth;
  grown_capacity_fits := fun cap n => Nat.le_max_l n (2 * cap)
|}.

(** The same library where the error code is 8 bytes wide. *)
Definition libstdcxx_int64 : Target := {|
  sizeof_error_code := 8;
  initial_capacity := 15;
  grown_capacity := libstdcxx_growth;
  grown_capacity_fits := fun cap n => Nat.le_max_l n (2 * cap)
|}.

(** ** Outcomes and the allocator *)

Inductive outcome (A : Type) : Type :=
| Normal (a : A)
| Thrown (e : std_exception).
Arguments Normal {A} a.
Arguments Thrown {A} e.

(** The allocator is a script: the answers to the successive requests to
    grow a string.  [None] grants the request, [Some e] throws [e]; once
    the script is used up every request is granted. *)
Definition allocator := list (option std_exception).

Definition request_growth (heap : allocator) : outcome unit * allocator :=
  match heap with
  | [] => (Normal tt, [])
  | None :: rest => (Normal tt, rest)
  | Some e :: rest => (Thrown e, rest)
  end.

Definition never_fails (heap : allocator) : Prop :=
  Forall (fun answer => answer = None) heap.

Module StdString.

Record basic_string := mk_string { chars : string; capacity : nat }.

Definition size (s : basic_string) : nat := String.length (chars s).
Definition empty (s : basic_string) : bool := Nat.eqb (size s) 0.
Definition c_str (s : basic_string) : string := chars s.

(** [std::string()] *)
Definition fresh `{Target} : basic_string := mk_string "" initial_capacity.

(** [s.reserve(n)] *)
Definition reserve `{Target} (n : nat) (s : basic_string) (heap : allocator)
  : outcome basic_string * allocator :=
  if (n <=? capacity s)%nat then (Normal s, heap)
  else match request_growth heap with
       | (Normal _, heap') =>
           (Normal (mk_string (chars s) (grown_capacity (capacity s) n)), heap')
       | (Thrown e, heap') => (Thrown e, heap')
       end.

(** [s.append(t)] *)
Definition append `{Target} (t : string) (s : basic_string) (heap : allocator)
  : outcome basic_string * allocator :=
  let n := size s + String.length t in
  if (n <=? capacity s)%nat then (Normal (mk_string (chars s ++ t) (capacity s)), heap)
  else match request_growth heap with
       | (Normal _, heap') =>
           (Normal (mk_string (chars s ++ t) (grown_capacity (capacity s) n)), heap')
       | (Thrown e, heap') => (Thrown e, heap')
       end.

(** [s.push_back(c)] *)
Definition push_back `{Target} (c : ascii) (s : basic_string) (heap : allocator)
  : outcome basic_string * allocator :=
  append (String c "") s heap.

End StdString.
Import StdString.

(** ** The data model *)

(** [error_code_type] is [DWORD] or [int]; a value is kept as the integer
    it denotes.  A [const char*] argument is kept as the text it points
    to.  [description_] and [context_] are never modified after
    construction, so only their text is kept; [message_] is the string
    that [what()] builds in place, with its capacity. *)
Definition error_code_type := Z.
Bind Scope Z_scope with error_code_type.

Record ErrorInfo := mk_ErrorInfo {
  info_error_code : error_code_type;
  info_description : string
}.

(** An object of a class derived from [Exception].  [category] is the
    string returned by the derived class's override of [category()]. *)
Record Exception := mk_Exception {
  category : string;
  error_code_ : error_code_type;
  description_ : string;
  context_ : string;
  message_ : basic_string
}.

(** ** Member functions that run with a throwing allocator

    A member function of [Exception] runs on the object ([this]) and the
    allocator.  When a statement throws, the rest of the block is skipped
    and the state is the one the throwing statement left: what was
    appended to [message_] before stays appended. *)

Record frame := mk_frame { this : Exception; heap : allocator }.

Definition Cxx (A : Type) : Type := frame -> outcome A * frame.

Definition ret {A : Type} (a : A) : Cxx A := fun st => (Normal a, st).

Definition bind {A B : Type} (m : Cxx A) (k : A -> Cxx B) : Cxx B :=
  fun st =>
    match m st with
    | (Normal a, st') => k a st'
    | (Thrown e, st') => (Thrown e, st')
    end.

Notation "m ;; k" := (bind m (fun _ => k))
  (at level 61, right associativity).

Definition set_message (e : Exception) (m : basic_string) : Exception :=
  mk_Exception (category e) (error_code_ e) (description_ e) (context_ e) m.

(** A mutating call on [message_]. *)
Definition on_message
  (op : basic_string -> allocator -> outcome basic_string * allocator) : Cxx unit :=
  fun st =>
    match op (message_ (this st)) (heap st) with
    | (Normal m, heap') => (Normal tt, mk_frame (set_message (this st) m) heap')
    | (Thrown e, heap') => (Thrown e, mk_frame (this st) heap')
    end.

Section Rendering.
Context `{Target}.

Definition message_reserve (n : nat) : Cxx unit := on_message (reserve n).
Definition message_append (t : string) : Cxx unit := on_message (append t).
Definition message_push_back (c : ascii) : Cxx unit := on_message (push_back c).

(** ** Constructors *)

(** [Exception(error_code_type error_code)] *)
Definition Exception_code (cat : string) (error_code : error_code_type) : Exception :=
  mk_Exception cat error_code "" "" fresh.

(** [Exception(error_code_type error_code, const char* context)] *)
Definition Exception_code_context
  (cat : string) (error_code : error_code_type) (context : string) : Exception :=
  mk_Exception cat error_code "" context fresh.

(** [Exception(error_code_type error_code, const char* context,
    const char* description)] *)
Definition Exception_code_context_description
  (cat : string) (error_code : error_code_type) (context description : string)
  : Exception :=
  mk_Exception cat error_code description context fresh.

(** [Exception(const ErrorInfo& error_info)] *)
Definition Exception_info (cat : string) (error_info : ErrorInfo) : Exception :=
  mk_Exception cat (info_error_code error_info) (info_description error_info) "" fresh.

(** [Exception(const ErrorInfo& error_info, const char* context)] *)
Definition Exception_info_context
  (cat : string) (error_info : ErrorInfo) (context : string) : Exception :=
  mk_Exception cat (info_error_code error_info) (info_description error_info)
               context fresh.

(** ** Accessors *)

Definition error_code (e : Exception) : error_code_type := error_code_ e.
Definition context (e : Exception) : string := context_ e.
Definition description (e : Exception) : string := description_ e.

(** ** [what()] *)

Definition HEX_MAP : list ascii :=
  ["0"; "1"; "2"; "3"; "4"; "5"; "6"; "7"; "8"; "9";
   "A"; "B"; "C"; "D"; "E"; "F"]%char.

(** [HEX_MAP[i]] *)
Definition hex_map_at (i : Z) : ascii := nth (Z.to_nat i) HEX_MAP "0"%char.

(** [static_cast<uint8_t>(x)] *)
Definition to_uint8 (x : Z) : Z := x mod 256.

(** The loop [while (error_code_size-- > 0) { ... }]: the body runs with
    [error_code_size] already decremented.  [>>] on the code is
    [Z.shiftr], which on a negative [int] is the arithmetic shift. *)
Fixpoint hex_loop (error_code_size : nat) (code : error_code_type) : Cxx unit :=
  match error_code_size with
  | O => ret tt
  | S error_code_size' =>
      let ch := to_uint8 (Z.shiftr code (Z.of_nat error_code_size' * 8)) in
      message_push_back (hex_map_at (Z.shiftr ch 4)) ;;
      message_push_back (hex_map_at (Z.land ch 15)) ;;
      hex_loop error_code_size' code
  end.

(** The body of the [try] block, on the object [e]. *)
Definition assemble (e : Exception) : Cxx unit :=
  message_reserve (String.length (description_ e)
                   + String.length (context_ e) + 100) ;;
  message_append (category e) ;;
  message_append "[0x" ;;
  hex_loop sizeof_error_code (error_code_ e) ;;
  message_append "]" ;;
  (if Nat.eqb (String.length (context_ e)) 0 then ret tt
   else message_append (context_ e)) ;;
  (if Nat.eqb (String.length (description_ e)) 0 then ret tt
   else message_append " " ;; message_append (description_ e)).

(** [const char* what() const noexcept]: the text returned, the object
    and the allocator after the call. *)
Definition what (e : Exception) (a : allocator) : string * Exception * allocator :=
  if empty (message_ e) then
    match assemble e (mk_frame e a) with
    | (Normal _, st) => (c_str (message_ (this st)), this st, heap st)
    | (Thrown ex, st) => (ex_what ex, this st, heap st)
    end
  else (c_str (message_ e), e, a).

Definition what_text (e : Exception) (a : allocator) : string := fst (fst (what e a)).
Definition what_object (e : Exception) (a : allocator) : Exception := snd (fst (what e a)).
Definition what_heap (e : Exception) (a : allocator) : allocator := snd (what e a).

(** The exception caught by the handler of [what()], if its [try] block
    runs and throws. *)
Definition caught (e : Exception) (a : allocator) : option std_exception :=
  if empty (message_ e) then
    match assemble e (mk_frame e a) with
    | (Normal _, _) => None
    | (Thrown ex, _) => Some ex
    end
  else None.

(** [n] calls of [what()] in a row on the same object: the object and
    the allocator after the last one. *)
Fixpoint what_calls (n : nat) (e : Exception) (a : allocator) : Exception * allocator :=
  match n with
  | O => (e, a)
  | S n' => what_calls n' (what_object e a) (what_heap e a)
  end.

(** The characters the loop of [what()] writes for [code], read off a
    run of the loop on an empty message with an allocator that grants
    every request. *)
Definition hex_segment (code : error_code_type) : string :=
  chars (message_ (this (snd (hex_loop sizeof_error_code code
                                       (mk_frame (Exception_code "" code) []))))).

End Rendering.

(** ** [SystemException], Windows *)

Module Win32.

Definition NUL : ascii := "000"%char.
Definition LF : ascii := "010"%char.
Definition CR : ascii := "013"%char.

(** What [FormatMessageA] hands back with
    [FORMAT_MESSAGE_ALLOCATE_BUFFER]: the number of characters stored,
    0 when it found no message, and the buffer it allocated. *)
Record FormatMessageA_result := mk_FormatMessageA_result {
  fm_length : nat;
  fm_buffer : list ascii
}.

(** [buffer[i] = c] *)
Fixpoint store (i : nat) (c : ascii) (buffer : list ascii) : list ascii :=
  match buffer, i with
  | [], _ => []
  | _ :: rest, O => c :: rest
  | b :: rest, S i' => b :: store i' c rest
  end.

(** [std::string(buffer)]: the characters before the first NUL. *)
Fixpoint string_of_buffer (buffer : list ascii) : string :=
  match buffer with
  | [] => ""
  | c :: rest => if Ascii.eqb c NUL then "" else String c (string_of_buffer rest)
  end.

(** [if (length > 0 && buffer[length - 1] == c) buffer[--length] = 0;] *)
Definition cut_trailing (c : ascii) (lb : nat * list ascii) : nat * list ascii :=
  let '(length, buffer) := lb in
  if (0 <? length)%nat && Ascii.eqb (nth (length - 1) buffer NUL) c
  then (length - 1, store (length - 1) NUL buffer)
  else (length, buffer).

Definition GetWin32ErrorDescription
  (FormatMessageA : error_code_type -> FormatMessageA_result)
  (error_code : error_code_type) : string :=
  let r := FormatMessageA error_code in
  if (fm_length r =? 0)%nat then ""
  else
    let lb := cut_trailing LF (fm_length r, fm_buffer r) in
    let lb := cut_trailing CR lb in
    string_of_buffer (snd lb).

(** [SystemException(error_code_type error_code, const char* context)] *)
Definition SystemException `{Target}
  (FormatMessageA : error_code_type -> FormatMessageA_result)
  (error_code : error_code_type) (context : string) : Exception :=
  Exception_code_context_description "WIN32" error_code context
    (GetWin32ErrorDescription FormatMessageA error_code).

End Win32.

(** ** [SystemException], Linux and macOS *)

Module Posix.

(** [SystemException(error_code_type ec, const char* cnt)] *)
Definition SystemException `{Target}
  (strerror : error_code_type -> string)
  (ec : error_code_type) (cnt : string) : Exception :=
  Exception_code_context_description "POSIX" ec cnt (strerror ec).

End Posix.

(** ** What the specification says, in its own words *)

Module Spec.

Definition hex_alphabet : string := "0123456789ABCDEF".

Definition hex_digit (d : Z) : ascii :=
  match String.get (Z.to_nat d) hex_alphabet with
  | Some c => c
  | None => "0"%char
  end.

(** [digits] hexadecimal digits of [v], most significant first, padded
    with zeros. *)
Fixpoint hex_fixed_width (digits : nat) (v : Z) : string :=
  match digits with
  | O => ""
  | S digits' => hex_fixed_width digits' (v / 16) ++ String (hex_digit (v mod 16)) ""
  end.

(** Byte [i] of [code], byte 0 being the least significant. *)
Definition byte_of (code : Z) (i : nat) : Z := (code / 256 ^ Z.of_nat i) mod 256.

(** Byte by byte from byte [n - 1] down to byte 0, the high nibble of
    each byte and then its low nibble. *)
Fixpoint hex_bytes (n : nat) (code : Z) : string :=
  match n with
  | O => ""
  | S n' =>
      String (hex_digit (byte_of code n' / 16))
        (String (hex_digit (byte_of code n' mod 16)) (hex_bytes n' code))
  end.

Definition is_upper_hex (c : ascii) : bool :=
  existsb (Ascii.eqb c) (list_ascii_of_string hex_alphabet).

(** [render(category(), code, context, description)] *)
Definition render `{Target} (cat : string) (c : Z) (x d : string) : string :=
  cat ++ "[0x" ++ hex_fixed_width (2 * sizeof_error_code) c ++ "]" ++ x
      ++ (if (String.length d =? 0)%nat then "" else " " ++ d).

Definition render_object `{Target} (e : Exception) : string :=
  render (category e) (error_code_ e) (context_ e) (description_ e).

(** Stripping one trailing [c], if there is one. *)
Fixpoint strip_trailing (c : ascii) (s : string) : string :=
  match s with
  | "" => ""
  | String a rest =>
      match rest with
      | "" => if Ascii.eqb a c then "" else s
      | String _ _ => String a (strip_trailing c rest)
      end
  end.

(** At most one trailing line feed, and after that at most one trailing
    carriage return. *)
Definition normalize_description (text : string) : string :=
  strip_trailing Win32.CR (strip_trailing Win32.LF text).

(** The cache is empty or holds the full rendering. *)
Definition cache_invariant `{Target} (e : Exception) : Prop :=
  chars (message_ e) = "" \/ chars (message_ e) = render_object e.

End Spec.

(** ** Notions used in the proofs *)

(** Everything but [message_] is the same in [e] and [e']. *)
Definition same_fields (e e' : Exception) : Prop :=
  category e' = category e /\ error_code_ e' = error_code_ e /\
  description_ e' = description_ e /\ context_ e' = context_ e.

(** [m] touches nothing but [message_]; when it completes it has appended
    [t] to [message_]; and it completes when the allocator refuses
    nothing. *)
Definition appends (m : Cxx unit) (t : string) : Prop :=
  forall st,
    same_fields (this st) (this (snd (m st))) /\
    (forall u st', m st = (Normal u, st') ->
       chars (message_ (this st')) = chars (message_ (this st)) ++ t) /\
    (never_fails (heap st) ->
       exists st', m st = (Normal tt, st') /\ never_fails (heap st')).

(** The frame after [t] was appended to [message_] within its capacity. *)
Definition appended (t : string) (st : frame) : frame :=
  mk_frame
    (set_message (this st)
       (mk_string (chars (message_ (this st)) ++ t) (capacity (message_ (this st)))))
    (heap st).

(** Where [t] fits in the capacity of [message_], [m] appends it without
    asking the allocator. *)
Definition fits (m : Cxx unit) (t : string) : Prop :=
  forall st,
    size (message_ (this st)) + String.length t <= capacity (message_ (this st)) ->
    m st = (Normal tt, appended t st).

(** What follows [reserve] in the [try] block of [what()]. *)
Definition after_reserve `{Target} (e : Exception) : Cxx unit :=
  message_append (category e) ;;
  message_append "[0x" ;;
  hex_loop sizeof_error_code (error_code_ e) ;;
  message_append "]" ;;
  (if Nat.eqb (String.length (context_ e)) 0 then ret tt
   else message_append (context_ e)) ;;
  (if Nat.eqb (String.length (description_ e)) 0 then ret tt
   else message_append " " ;; message_append (description_ e)).

(** ** Sample inputs *)

(** The category of a derived class, longer than the storage [what()]
    reserves beyond the context and the description. *)
Definition long_category : string :=
  "com.example.storage.replication.snapshot-transfer.checksum-verification.remote-peer-protocol".

(** The allocator grants [reserve] and refuses the next request. *)
Definition refuse_second : allocator := [None; Some bad_alloc].

(** A message of [FormatMessageA], which ends its messages with CR LF. *)
Definition file_not_found_text : string :=
  "The system cannot find the file specified."
    ++ String Win32.CR (String Win32.LF "").

Definition format_message_sample (error_code : error_code_type)
  : Win32.FormatMessageA_result :=
  if (error_code =? 2)%Z
  then Win32.mk_FormatMessageA_result
         (String.length file_not_found_text)
         (list_ascii_of_string file_not_found_text ++ [Win32.NUL])
  else Win32.mk_FormatMessageA_result 0 [].

(** A lookup whose text ends with CR LF, handed to the POSIX variant. *)
Definition strerror_with_line_ending (ec : error_code_type) : string :=
  "Operation failed." ++ String Win32.CR (String Win32.LF "").

(** ** Reading a hexadecimal numeral back *)

(** The position of [c] in [l], or the length of [l] when [c] is not in
    it. *)
Fixpoint index_of (c : ascii) (l : list ascii) : nat :=
  match l with
  | [] => 0
  | x :: rest => if Ascii.eqb c x then 0 else S (index_of c rest)
  end.

(** The value of a digit of [HEX_MAP]. *)
Definition digit_value (c : ascii) : Z := Z.of_nat (index_of c HEX_MAP).

(** The number a string of digits of [HEX_MAP] denotes, most significant
    digit first. *)
Definition hex_value (s : string) : Z :=
  fold_left (fun acc c => (acc * 16 + digit_value c)%Z) (list_ascii_of_string s) 0%Z.

(** ** How far a block of [what()] gets

    Whatever the allocator answers, [m] appends a part [p] of [t] to
    [message_], and all of [t] when it completes. *)
Definition progresses (m : Cxx unit) (t : string) : Prop :=
  forall st, exists p s : string,
    t = p ++ s /\
    chars (message_ (this (snd (m st)))) = chars (message_ (this st)) ++ p /\
    match fst (m st) with
    | Normal _ => s = ""
    | Thrown _ => True
    end.

(** [message_] holds the beginning of the full rendering of [e]. *)
Definition cache_is_prefix `{Target} (e : Exception) : Prop :=
  exists rest : string, Spec.render_object e = chars (message_ e) ++ rest.

(** * Facts *)

Module StringFacts.

Lemma app_assoc (a b c : string) : (a ++ b) ++ c = a ++ b ++ c.
Proof. induction a as [|x a IH]; simpl; [reflexivity | now rewrite IH]. Qed.

Lemma app_empty_r (a : string) : a ++ "" = a.
Proof. induction a as [|x a IH]; simpl; [reflexivity | now rewrite IH]. Qed.

Lemma length_app (a b : string) :
  String.length (a ++ b) = String.length a + String.length b.
Proof. induction a as [|x a IH]; simpl; [reflexivity | now rewrite IH]. Qed.

Lemma length_zero (a : string) : String.length a = 0 -> a = "".
Proof. destruct a; simpl; [reflexivity | discriminate]. Qed.

Lemma app_inv_head (a b c : string) : a ++ b = a ++ c -> b = c.
Proof.
  induction a as [|x a IH]; simpl; intros E; [exact E | injection E; exact IH].
Qed.

End StringFacts.

(** ** The hexadecimal digits *)

Section HexFacts.

Lemma hex_map_at_digit (d : Z) : hex_map_at d = Spec.hex_digit d.
Proof.
  unfold hex_map_at, Spec.hex_digit.
  generalize (Z.to_nat d); intros n.
  do 17 (destruct n as [|n]; [reflexivity|]).
  reflexivity.
Qed.

Lemma shifted_byte (code : Z) (k : nat) :
  to_uint8 (Z.shiftr code (Z.of_nat k * 8)) = Spec.byte_of code k.
Proof.
  unfold to_uint8, Spec.byte_of.
  rewrite Z.shiftr_div_pow2 by lia.
  replace (Z.of_nat k * 8)%Z with (8 * Z.of_nat k)%Z by lia.
  rewrite Z.pow_mul_r by lia.
  reflexivity.
Qed.

Lemma high_nibble (ch : Z) : Z.shiftr ch 4 = (ch / 16)%Z.
Proof. rewrite Z.shiftr_div_pow2 by lia. reflexivity. Qed.

Lemma low_nibble (ch : Z) : Z.land ch 15 = (ch mod 16)%Z.
Proof. change 15%Z with (Z.ones 4). rewrite Z.land_ones by lia. reflexivity. Qed.

Lemma byte_of_range (code : Z) (i : nat) : (0 <= Spec.byte_of code i < 256)%Z.
Proof. unfold Spec.byte_of. apply Z.mod_pos_bound. lia. Qed.

Lemma byte_of_succ (code : Z) (i : nat) :
  Spec.byte_of code (S i) = Spec.byte_of (code / 256) i.
Proof.
  unfold Spec.byte_of.
  rewrite Nat2Z.inj_succ, Z.pow_succ_r by lia.
  rewrite Z.div_div by lia.
  reflexivity.
Qed.

(** Peeling the least significant byte instead of the most significant
    one. *)
Lemma hex_bytes_low (n : nat) : forall code,
  Spec.hex_bytes (S n) code =
  Spec.hex_bytes n (code / 256)
    ++ String (Spec.hex_digit (Spec.byte_of code 0 / 16))
         (String (Spec.hex_digit (Spec.byte_of code 0 mod 16)) "").
Proof.
  induction n as [|n IH]; intros code.
  - reflexivity.
  - change (Spec.hex_bytes (S (S n)) code)
      with (String (Spec.hex_digit (Spec.byte_of code (S n) / 16))
              (String (Spec.hex_digit (Spec.byte_of code (S n) mod 16))
                 (Spec.hex_bytes (S n) code))).
    rewrite IH, byte_of_succ. reflexivity.
Qed.

Lemma nibble_split_div (a q : Z) : (0 <= a < 16)%Z -> ((a + 16 * q) / 16 = q)%Z.
Proof.
  intros B. rewrite (Z.mul_comm 16 q), Z.div_add by lia.
  rewrite Z.div_small by lia. lia.
Qed.

Lemma nibble_split_mod (a q : Z) : (0 <= a < 16)%Z -> ((a + 16 * q) mod 16 = a)%Z.
Proof.
  intros B. rewrite (Z.mul_comm 16 q), Z.mod_add by lia.
  apply Z.mod_small; lia.
Qed.

Lemma hex_fixed_width_two (n : nat) (v : Z) :
  Spec.hex_fixed_width (S (S n)) v =
  Spec.hex_fixed_width n (v / 256)
    ++ String (Spec.hex_digit (Spec.byte_of v 0 / 16))
         (String (Spec.hex_digit (Spec.byte_of v 0 mod 16)) "").
Proof.
  assert (B : (0 <= v mod 16 < 16)%Z) by (apply Z.mod_pos_bound; lia).
  simpl Spec.hex_fixed_width.
  rewrite StringFacts.app_assoc. simpl.
  unfold Spec.byte_of. simpl Z.of_nat. rewrite Z.pow_0_r, Z.div_1_r.
  rewrite Z.div_div by lia. change (16 * 16)%Z with 256%Z.
  change 256%Z with (16 * 16)%Z at 3 4.
  rewrite Z.rem_mul_r by lia.
  rewrite nibble_split_div, nibble_split_mod by exact B.
  reflexivity.
Qed.

(** The byte-by-byte text is the fixed-width hexadecimal numeral. *)
Lemma hex_bytes_fixed_width (n : nat) : forall code,
  Spec.hex_bytes n code = Spec.hex_fixed_width (2 * n) code.
Proof.
  induction n as [|n IH]; intros code.
  - reflexivity.
  - rewrite hex_bytes_low.
    replace (2 * S n) with (S (S (2 * n))) by lia.
    rewrite hex_fixed_width_two, IH. reflexivity.
Qed.

Lemma hex_fixed_width_length (w : nat) : forall v,
  String.length (Spec.hex_fixed_width w v) = w.
Proof.
  induction w as [|w IH]; intros v; simpl.
  - reflexivity.
  - rewrite StringFacts.length_app, IH. simpl. lia.
Qed.

Lemma hex_fixed_width_mod (w : nat) : forall v,
  Spec.hex_fixed_width w (v mod 16 ^ Z.of_nat w) = Spec.hex_fixed_width w v.
Proof.
  induction w as [|w IH]; intros v.
  - reflexivity.
  - rewrite Nat2Z.inj_succ, Z.pow_succ_r by lia.
    rewrite Z.rem_mul_r by lia.
    cbn [Spec.hex_fixed_width].
    assert (B : (0 <= v mod 16 < 16)%Z) by (apply Z.mod_pos_bound; lia).
    rewrite nibble_split_div, nibble_split_mod by exact B.
    rewrite IH. reflexivity.
Qed.

End HexFacts.

(** ** Statements of [what()] one at a time *)

Section StepFacts.
Context `{Target}.

Lemma same_fields_refl (e : Exception) : same_fields e e.
Proof. repeat split. Qed.

Lemma same_fields_trans (e1 e2 e3 : Exception) :
  same_fields e1 e2 -> same_fields e2 e3 -> same_fields e1 e3.
Proof.
  intros (A1 & A2 & A3 & A4) (B1 & B2 & B3 & B4).
  repeat split; congruence.
Qed.

Lemma same_fields_set_message (e : Exception) (m : basic_string) :
  same_fields e (set_message e m).
Proof. repeat split. Qed.

Lemma request_growth_granted (a : allocator) :
  never_fails a ->
  exists a', request_growth a = (Normal tt, a') /\ never_fails a'.
Proof.
  intros NF. destruct a as [|[e|] rest]; simpl.
  - exists []. split; [reflexivity | constructor].
  - inversion NF as [|? ? E ?]. discriminate E.
  - exists rest. split; [reflexivity | now inversion NF].
Qed.

Lemma appends_ret : appends (ret tt) "".
Proof.
  intros st. unfold ret. simpl. split; [apply same_fields_refl | split].
  - intros u st' E. injection E as _ <-. now rewrite StringFacts.app_empty_r.
  - intros NF. exists st. split; [reflexivity | exact NF].
Qed.

Lemma appends_reserve (n : nat) : appends (message_reserve n) "".
Proof.
  intros st. unfold message_reserve, on_message, reserve.
  destruct (n <=? capacity (message_ (this st)))%nat.
  - simpl. split; [repeat split | split].
    + intros u st' E. injection E as _ <-. simpl.
      now rewrite StringFacts.app_empty_r.
    + intros NF. eexists. split; [reflexivity | exact NF].
  - split; [|split].
    + destruct (request_growth (heap st)) as [[u|ex] a']; simpl; repeat split.
    + intros u st' E.
      destruct (request_growth (heap st)) as [[u'|ex] a']; [|discriminate E].
      injection E as _ <-. simpl. now rewrite StringFacts.app_empty_r.
    + intros NF. destruct (request_growth_granted _ NF) as (a' & -> & NF').
      eexists. split; [reflexivity | exact NF'].
Qed.

Lemma appends_append (t : string) : appends (message_append t) t.
Proof.
  intros st. unfold message_append, on_message, append.
  destruct (size (message_ (this st)) + String.length t
            <=? capacity (message_ (this st)))%nat.
  - simpl. split; [repeat split | split].
    + intros u st' E. injection E as _ <-. reflexivity.
    + intros NF. eexists. split; [reflexivity | exact NF].
  - split; [|split].
    + destruct (request_growth (heap st)) as [[u|ex] a']; simpl; repeat split.
    + intros u st' E.
      destruct (request_growth (heap st)) as [[u'|ex] a']; [|discriminate E].
      injection E as _ <-. reflexivity.
    + intros NF. destruct (request_growth_granted _ NF) as (a' & -> & NF').
      eexists. split; [reflexivity | exact NF'].
Qed.

Lemma appends_push_back (c : ascii) : appends (message_push_back c) (String c "").
Proof. exact (appends_append (String c "")). Qed.

Lemma appends_bind (m1 m2 : Cxx unit) (t1 t2 : string) :
  appends m1 t1 -> appends m2 t2 -> appends (m1 ;; m2) (t1 ++ t2).
Proof.
  intros A1 A2 st. unfold bind.
  destruct (A1 st) as (F1 & N1 & G1).
  destruct (m1 st) as [[u1|ex1] st1] eqn:E1; simpl in F1.
  - destruct (A2 st1) as (F2 & N2 & G2).
    split; [|split].
    + eapply same_fields_trans; eassumption.
    + intros u st' E. rewrite (N2 _ _ E), (N1 _ _ eq_refl).
      apply StringFacts.app_assoc.
    + intros NF. destruct (G1 NF) as (st1' & E1' & NF1).
      injection E1' as _ <-. exact (G2 NF1).
  - split; [exact F1 | split].
    + intros u st' E. discriminate E.
    + intros NF. destruct (G1 NF) as (st1' & E1' & _). discriminate E1'.
Qed.

Lemma appends_hex_loop (n : nat) (code : error_code_type) :
  appends (hex_loop n code) (Spec.hex_bytes n code).
Proof.
  induction n as [|n IH].
  - exact appends_ret.
  - cbn [hex_loop Spec.hex_bytes].
    rewrite shifted_byte, high_nibble, low_nibble, !hex_map_at_digit.
    apply (appends_bind _ _ (String _ "") (String _ _)); [apply appends_push_back|].
    apply (appends_bind _ _ (String _ "") _); [apply appends_push_back | exact IH].
Qed.

Lemma appends_assemble (e : Exception) :
  appends (assemble e) (Spec.render_object e).
Proof.
  unfold assemble, Spec.render_object, Spec.render.
  change (category e ++ "[0x" ++ _) with
    ("" ++ category e ++ "[0x"
        ++ Spec.hex_fixed_width (2 * sizeof_error_code) (error_code_ e) ++ "]"
        ++ context_ e
        ++ (if (String.length (description_ e) =? 0)%nat then ""
            else " " ++ description_ e)).
  rewrite <- hex_bytes_fixed_width.
  repeat (apply appends_bind;
          [first [apply appends_reserve | apply appends_append
                 | apply appends_hex_loop] |]).
  apply appends_bind.
  - destruct (String.length (context_ e) =? 0)%nat eqn:E.
    + apply Nat.eqb_eq, StringFacts.length_zero in E. rewrite E. apply appends_ret.
    + apply appends_append.
  - destruct (String.length (description_ e) =? 0)%nat.
    + apply appends_ret.
    + apply appends_bind; apply appends_append.
Qed.

End StepFacts.

(** ** [what()] as a whole *)

Section WhatFacts.
Context `{Target}.

Lemma empty_chars (m : basic_string) : empty m = true -> chars m = "".
Proof.
  unfold empty, size. intros E.
  apply Nat.eqb_eq in E. now apply StringFacts.length_zero.
Qed.

Lemma render_not_empty (cat : string) (c : Z) (x d : string) :
  0 < String.length (Spec.render cat c x d).
Proof.
  unfold Spec.render.
  rewrite StringFacts.length_app, StringFacts.length_app. simpl. lia.
Qed.

Lemma what_cached (e : Exception) (a : allocator) :
  empty (message_ e) = false -> what e a = (c_str (message_ e), e, a).
Proof. intros E. unfold what. now rewrite E. Qed.

(** A call whose [try] block completes returns the full rendering and
    leaves it in [message_]. *)
Lemma what_completed (e : Exception) (a : allocator) :
  empty (message_ e) = true -> caught e a = None ->
  what_text e a = Spec.render_object e /\
  chars (message_ (what_object e a)) = Spec.render_object e.
Proof.
  intros E C. unfold what_text, what_object, what, caught in *.
  rewrite E in *.
  destruct (appends_assemble e (mk_frame e a)) as (_ & N & _).
  destruct (assemble e (mk_frame e a)) as [[u|ex] st]; [|discriminate C].
  specialize (N u st eq_refl). simpl in N.
  rewrite (empty_chars _ E) in N. simpl in *. now split.
Qed.

Lemma never_fails_not_caught (e : Exception) (a : allocator) :
  never_fails a -> caught e a = None.
Proof.
  intros NF. unfold caught.
  destruct (empty (message_ e)); [|reflexivity].
  destruct (appends_assemble e (mk_frame e a)) as (_ & _ & G).
  destruct (G NF) as (st' & -> & _). reflexivity.
Qed.


Lemma what_same_fields (e : Exception) (a : allocator) :
  same_fields e (what_object e a).
Proof.
  unfold what_object, what.
  destruct (empty (message_ e)); [|apply same_fields_refl].
  destruct (appends_assemble e (mk_frame e a)) as (F & _ & _).
  destruct (assemble e (mk_frame e a)) as [[u|ex] st]; exact F.
Qed.

Lemma what_calls_same_fields (n : nat) : forall e a,
  same_fields e (fst (what_calls n e a)).
Proof.
  induction n as [|n IH]; intros e a; simpl.
  - apply same_fields_refl.
  - eapply same_fields_trans; [apply what_same_fields | apply IH].
Qed.

End WhatFacts.

(** * The properties of the specification *)

(** C2.  When no exception is thrown while the message is assembled,
    [what()] on an object just constructed from a code [c], a context [x]
    and a description [d] returns
    [category() + "[0x" + hex(c) + "]" + x + (d empty ? "" : " " + d)],
    where [hex(c)] is the numeral of [2 * sizeof(c)] upper-case digits;
    with [x] empty nothing stands between ["]"] and the description part,
    and with [d] empty the text ends with the context.  By
    [never_fails_not_caught] the hypothesis holds whenever the allocator
    refuses nothing. *)
Theorem what_fresh_renders `{Target}
  (cat : string) (c : error_code_type) (x d : string) (a : allocator) :
  caught (Exception_code_context_description cat c x d) a = None ->
  what_text (Exception_code_context_description cat c x d) a =
    cat ++ "[0x" ++ Spec.hex_fixed_width (2 * sizeof_error_code) c ++ "]" ++ x
        ++ (if (String.length d =? 0)%nat then "" else " " ++ d) /\
  (x = "" ->
     what_text (Exception_code_context_description cat c x d) a =
       cat ++ "[0x" ++ Spec.hex_fixed_width (2 * sizeof_error_code) c ++ "]"
           ++ (if (String.length d =? 0)%nat then "" else " " ++ d)) /\
  (d = "" ->
     what_text (Exception_code_context_description cat c x d) a =
       cat ++ "[0x" ++ Spec.hex_fixed_width (2 * sizeof_error_code) c ++ "]" ++ x).
Proof.
  intros C.
  destruct (what_completed (Exception_code_context_description cat c x d) a
              eq_refl C) as (W & _).
  unfold Spec.render_object, Spec.render in W. simpl in W.
  split; [exact W | split].
  - intros ->. exact W.
  - intros ->. rewrite W. simpl. now rewrite StringFacts.app_empty_r.
Qed.

Lemma what_fresh_renders_witness :
  caught (Exception_code_context_description
            "POSIX" 2%Z "open config" "No such file or directory") [] = None /\
  what_text (Exception_code_context_description
               "POSIX" 2%Z "open config" "No such file or directory") []
  = "POSIX[0x00000002]open config No such file or directory".
Proof.
  split; [reflexivity|].
  exact (proj1 (what_fresh_renders
                  "POSIX" 2%Z "open config" "No such file or directory" []
                  eq_refl)).
Defined.

Example what_win32_no_description :
  what_text (Exception_code "WIN32" 5%Z) [] = "WIN32[0x00000005]".
Proof. reflexivity. Qed.

(** ** The hexadecimal segment *)

Section HexSegment.
Context `{Target}.

Lemma hex_segment_bytes (code : error_code_type) :
  hex_segment code = Spec.hex_bytes sizeof_error_code code.
Proof.
  unfold hex_segment.
  destruct (appends_hex_loop sizeof_error_code code
              (mk_frame (Exception_code "" code) [])) as (_ & N & G).
  destruct (G (Forall_nil _)) as (st' & E & _).
  rewrite E. simpl. rewrite (N _ _ E). reflexivity.
Qed.

Lemma hex_digit_upper (d : Z) : Spec.is_upper_hex (Spec.hex_digit d) = true.
Proof.
  unfold Spec.hex_digit. generalize (Z.to_nat d); intros n.
  do 17 (destruct n as [|n]; [reflexivity|]).
  reflexivity.
Qed.

Lemma hex_bytes_upper (n : nat) (code : Z) :
  forallb Spec.is_upper_hex (list_ascii_of_string (Spec.hex_bytes n code)) = true.
Proof.
  induction n as [|n IH]; [reflexivity|].
  cbn [Spec.hex_bytes list_ascii_of_string forallb].
  now rewrite !hex_digit_upper, IH.
Qed.

Lemma minus_one_div (b : Z) : (0 < b)%Z -> (-1 / b = -1)%Z.
Proof.
  intros B. symmetry. apply (Z.div_unique_pos (-1) b (-1) (b - 1)); lia.
Qed.

Lemma byte_of_minus_one (i : nat) : Spec.byte_of (-1) i = 255%Z.
Proof.
  unfold Spec.byte_of. rewrite minus_one_div by (apply Z.pow_pos_nonneg; lia).
  reflexivity.
Qed.

Lemma hex_bytes_minus_one (n : nat) :
  Spec.hex_bytes n (-1) = string_of_list_ascii (repeat "F"%char (2 * n)).
Proof.
  induction n as [|n IH]; [reflexivity|].
  replace (2 * S n) with (S (S (2 * n))) by lia.
  cbn [Spec.hex_bytes repeat string_of_list_ascii].
  rewrite byte_of_minus_one, IH. reflexivity.
Qed.

Lemma sixteen_pow (n : nat) : (16 ^ Z.of_nat (2 * n) = 2 ^ (8 * Z.of_nat n))%Z.
Proof.
  change 16%Z with (2 ^ 4)%Z. rewrite <- Z.pow_mul_r by lia.
  f_equal. lia.
Qed.

End HexSegment.

(** C5.  The hexadecimal segment is written byte by byte, from the most
    significant byte of the code to the least significant, two digits of
    [0123456789ABCDEF] for each byte, the high nibble first: in whatever
    state the loop runs to its end it has appended exactly that text; the
    text has [2 * sizeof(c)] characters for every code, all of them
    upper-case hexadecimal digits, and is the zero-padded numeral of the
    code. *)
Theorem hex_segment_byte_by_byte `{Target} (code : error_code_type) :
  hex_segment code = Spec.hex_bytes sizeof_error_code code /\
  (forall st u st',
     hex_loop sizeof_error_code code st = (Normal u, st') ->
     chars (message_ (this st')) = chars (message_ (this st)) ++ hex_segment code) /\
  String.length (hex_segment code) = 2 * sizeof_error_code /\
  forallb Spec.is_upper_hex (list_ascii_of_string (hex_segment code)) = true /\
  hex_segment code = Spec.hex_fixed_width (2 * sizeof_error_code) code.
Proof.
  rewrite hex_segment_bytes.
  split; [reflexivity | split; [|split; [|split]]].
  - intros st u st' E.
    destruct (appends_hex_loop sizeof_error_code code st) as (_ & N & _).
    exact (N u st' E).
  - rewrite hex_bytes_fixed_width. apply hex_fixed_width_length.
  - apply hex_bytes_upper.
  - apply hex_bytes_fixed_width.
Qed.

Example hex_segment_32 : @hex_segment libstdcxx_int32 2%Z = "00000002".
Proof. reflexivity. Qed.

Example hex_segment_64 : @hex_segment libstdcxx_int64 2%Z = "0000000000000002".
Proof. reflexivity. Qed.

Example hex_segment_bytes_in_order :
  @hex_segment libstdcxx_int32 305441741%Z = "1234ABCD".
Proof. reflexivity. Qed.

(** C10.  For a negative [int] code the segment is the byte pattern of the
    code modulo [2 ^ (8 * sizeof(int))], that is of [2 ^ (8 * sizeof(int)) + code],
    a value with the top bit set; code [-1] gives [2 * sizeof(int)] digits
    [F]. *)
Theorem negative_code_twos_complement `{Target} (code : error_code_type) :
  (- 2 ^ (8 * Z.of_nat sizeof_error_code - 1) <= code < 0)%Z ->
  hex_segment code =
    Spec.hex_bytes sizeof_error_code (code mod 2 ^ (8 * Z.of_nat sizeof_error_code)) /\
  (code mod 2 ^ (8 * Z.of_nat sizeof_error_code)
   = 2 ^ (8 * Z.of_nat sizeof_error_code) + code)%Z /\
  (2 ^ (8 * Z.of_nat sizeof_error_code - 1)
   <= 2 ^ (8 * Z.of_nat sizeof_error_code) + code
   < 2 ^ (8 * Z.of_nat sizeof_error_code))%Z /\
  hex_segment (-1) = string_of_list_ascii (repeat "F"%char (2 * sizeof_error_code)).
Proof.
  intros R.
  set (M := (2 ^ (8 * Z.of_nat sizeof_error_code))%Z) in *.
  assert (P : (0 < M)%Z) by (apply Z.pow_pos_nonneg; lia).
  assert (Hhalf : (2 * 2 ^ (8 * Z.of_nat sizeof_error_code - 1) <= M)%Z).
  { destruct sizeof_error_code as [|n] eqn:E.
    - subst M. simpl. lia.
    - subst M. rewrite <- Z.pow_succ_r by lia. apply Z.pow_le_mono_r; lia. }
  assert (Hmod : (code mod M = M + code)%Z).
  { symmetry. apply (Z.mod_unique_pos code M (-1) (M + code)); lia. }
  split; [|split; [exact Hmod | split; [lia|]]].
  - rewrite hex_segment_bytes, !hex_bytes_fixed_width.
    subst M. rewrite <- sixteen_pow. symmetry. apply hex_fixed_width_mod.
  - rewrite hex_segment_bytes. apply hex_bytes_minus_one.
Qed.

Lemma negative_code_twos_complement_witness :
  (- 2 ^ (8 * Z.of_nat (@sizeof_error_code libstdcxx_int32) - 1) <= -2 < 0)%Z /\
  @hex_segment libstdcxx_int32 (-2)%Z = "FFFFFFFE".
Proof.
  split; [vm_compute; split; [discriminate | reflexivity]|].
  destruct (@negative_code_twos_complement libstdcxx_int32 (-2)%Z) as (E & _).
  - vm_compute; split; [discriminate | reflexivity].
  - rewrite E. reflexivity.
Defined.

Example minus_one_int32 :
  what_text (Exception_code "POSIX" (-1)%Z) [] = "POSIX[0xFFFFFFFF]".
Proof. reflexivity. Qed.

(** C6.  A non-empty [message_] is returned at once: the call changes
    neither the object nor the allocator.  Hence, after a call whose
    assembly was not interrupted by an exception, a second call returns
    the same text as the first and assembles nothing. *)
Theorem what_twice_identical `{Target} (e : Exception) (a : allocator) :
  caught e a = None ->
  (empty (message_ e) = false -> what e a = (c_str (message_ e), e, a)) /\
  what (what_object e a) (what_heap e a)
  = (what_text e a, what_object e a, what_heap e a).
Proof.
  intros C. split; [apply what_cached|].
  destruct (empty (message_ e)) eqn:E.
  - destruct (what_completed e a E C) as (T & M).
    rewrite what_cached.
    + unfold c_str. now rewrite M, T.
    + unfold empty, size. rewrite M. apply Nat.eqb_neq.
      pose proof (render_not_empty (category e) (error_code_ e)
                    (context_ e) (description_ e)) as P.
      unfold Spec.render_object. lia.
  - unfold what_object, what_heap, what_text.
    rewrite (what_cached e a E). simpl. apply what_cached, E.
Qed.

Lemma what_twice_identical_witness :
  caught (Exception_code_context "WIN32" 5 "CreateFile") [] = None /\
  what (what_object (Exception_code_context "WIN32" 5 "CreateFile") [])
       (what_heap (Exception_code_context "WIN32" 5 "CreateFile") [])
  = ("WIN32[0x00000005]CreateFile",
     what_object (Exception_code_context "WIN32" 5 "CreateFile") [],
     []).
Proof.
  split; [reflexivity|].
  exact (proj2 (what_twice_identical
                  (Exception_code_context "WIN32" 5 "CreateFile") [] eq_refl)).
Defined.

(** C7.  An object built from [ErrorInfo{code, desc}] and a context and an
    object built from the same code, context and description are the same
    object, and [what()] gives the same result on both; without a context
    the object is the one built with an empty context. *)
Theorem error_info_construction_agrees `{Target}
  (cat : string) (code : error_code_type) (desc ctx : string) (a : allocator) :
  what_text (Exception_info_context cat (mk_ErrorInfo code desc) ctx) a
  = what_text (Exception_code_context_description cat code ctx desc) a /\
  what (Exception_info_context cat (mk_ErrorInfo code desc) ctx) a
  = what (Exception_code_context_description cat code ctx desc) a /\
  what (Exception_info cat (mk_ErrorInfo code desc)) a
  = what (Exception_code_context_description cat code "" desc) a.
Proof. repeat split. Qed.

Example error_info_rendered :
  what_text (Exception_info_context "POSIX" (mk_ErrorInfo 2 "file not found") "open") []
  = "POSIX[0x00000002]open file not found".
Proof. reflexivity. Qed.

(** C9.  However many times [what()] is called, and whether the calls
    complete or catch an exception, [error_code()], [context()],
    [description()] and [category()] return what they returned before:
    only [message_] changes. *)
Theorem what_preserves_accessors `{Target}
  (n : nat) (e : Exception) (a : allocator) :
  error_code (fst (what_calls n e a)) = error_code e /\
  context (fst (what_calls n e a)) = context e /\
  description (fst (what_calls n e a)) = description e /\
  category (fst (what_calls n e a)) = category e /\
  fst (what_calls n e a) = set_message e (message_ (fst (what_calls n e a))).
Proof.
  destruct (what_calls_same_fields n e a) as (F1 & F2 & F3 & F4).
  unfold error_code, context, description.
  repeat split; try assumption.
  destruct (fst (what_calls n e a)) as [c1 c2 c3 c4 c5]; simpl in *.
  unfold set_message; simpl. congruence.
Qed.

(** ** When can the assembly be interrupted half-way?

    [what()] reserves [description_.size() + context_.size() + 100]
    characters before it appends anything.  Where the whole message fits
    in that, only [reserve] can throw, and then [message_] is still
    empty. *)

Section Reserved.
Context `{Target}.

Lemma set_message_same (e : Exception) : set_message e (message_ e) = e.
Proof. destruct e; reflexivity. Qed.

Lemma fits_ret : fits (ret tt) "".
Proof.
  intros st _. unfold ret, appended.
  rewrite StringFacts.app_empty_r.
  destruct st as [e a]; simpl. destruct e as [c1 c2 c3 c4 [m cap]]; reflexivity.
Qed.

Lemma fits_append (t : string) : fits (message_append t) t.
Proof.
  intros st L. unfold message_append, on_message, append.
  apply Nat.leb_le in L. rewrite L. reflexivity.
Qed.

Lemma fits_bind (m1 m2 : Cxx unit) (t1 t2 : string) :
  fits m1 t1 -> fits m2 t2 -> fits (m1 ;; m2) (t1 ++ t2).
Proof.
  intros F1 F2 st L. rewrite StringFacts.length_app in L.
  unfold bind. rewrite (F1 st) by lia.
  rewrite (F2 (appended t1 st)).
  - unfold appended; simpl. now rewrite StringFacts.app_assoc.
  - unfold appended, size in *; simpl. rewrite StringFacts.length_app. lia.
Qed.

Lemma fits_hex_loop (n : nat) (code : error_code_type) :
  fits (hex_loop n code) (Spec.hex_bytes n code).
Proof.
  induction n as [|n IH].
  - exact fits_ret.
  - cbn [hex_loop Spec.hex_bytes].
    rewrite shifted_byte, high_nibble, low_nibble, !hex_map_at_digit.
    apply (fits_bind _ _ (String _ "") (String _ _)); [apply fits_append|].
    apply (fits_bind _ _ (String _ "") _); [apply fits_append | exact IH].
Qed.

Lemma fits_after_reserve (e : Exception) :
  fits (after_reserve e) (Spec.render_object e).
Proof.
  unfold after_reserve, Spec.render_object, Spec.render.
  rewrite <- hex_bytes_fixed_width.
  repeat (apply fits_bind;
          [first [apply fits_append | apply fits_hex_loop] |]).
  apply fits_bind.
  - destruct (String.length (context_ e) =? 0)%nat eqn:E.
    + apply Nat.eqb_eq, StringFacts.length_zero in E. rewrite E. apply fits_ret.
    + apply fits_append.
  - destruct (String.length (description_ e) =? 0)%nat.
    + apply fits_ret.
    + apply fits_bind; apply fits_append.
Qed.

Lemma render_length_bound (e : Exception) :
  String.length (Spec.render_object e)
  <= String.length (category e) + 2 * sizeof_error_code + 5
     + String.length (description_ e) + String.length (context_ e).
Proof.
  unfold Spec.render_object, Spec.render.
  repeat rewrite StringFacts.length_app.
  rewrite hex_fixed_width_length.
  destruct (String.length (description_ e) =? 0)%nat; simpl; lia.
Qed.

(** With a category short enough for the reserved storage, a call that
    catches an exception leaves the object as it was. *)
Lemma short_category_failure (e : Exception) (a : allocator) (ex : std_exception) :
  String.length (category e) + 2 * sizeof_error_code + 5 <= 100 ->
  caught e a = Some ex ->
  what_object e a = e.
Proof.
  intros Short C. unfold caught, what_object, what in *.
  destruct (empty (message_ e)) eqn:E; [|discriminate C].
  pose proof (render_length_bound e) as B.
  assert (Z0 : size (message_ e) = 0) by (now apply Nat.eqb_eq in E).
  change (assemble e) with
    (message_reserve (String.length (description_ e)
                      + String.length (context_ e) + 100) ;; after_reserve e) in *.
  unfold bind, message_reserve, on_message, reserve in *. simpl in *.
  destruct (String.length (description_ e) + String.length (context_ e) + 100
            <=? capacity (message_ e))%nat eqn:L.
  - apply Nat.leb_le in L. simpl in *.
    rewrite fits_after_reserve in C by (simpl; lia). discriminate C.
  - destruct (request_growth a) as [[u|ex'] a']; simpl in *; [|reflexivity].
    pose proof (grown_capacity_fits (capacity (message_ e))
                  (String.length (description_ e)
                   + String.length (context_ e) + 100)) as G.
    rewrite fits_after_reserve in C by (unfold size in *; simpl; lia).
    discriminate C.
Qed.

(** For such objects the cache is empty or complete after every call. *)
Lemma short_category_invariant (e : Exception) (a : allocator) :
  String.length (category e) + 2 * sizeof_error_code + 5 <= 100 ->
  Spec.cache_invariant e -> Spec.cache_invariant (what_object e a).
Proof.
  intros Short I.
  destruct (empty (message_ e)) eqn:E.
  - destruct (caught e a) as [ex|] eqn:C.
    + now rewrite (short_category_failure e a ex Short C).
    + destruct (what_completed e a E C) as (_ & M).
      right. rewrite M. unfold Spec.render_object.
      destruct (what_same_fields e a) as (-> & -> & -> & ->). reflexivity.
  - unfold what_object. now rewrite (what_cached e a E).
Qed.

End Reserved.

(** ** A category longer than the reserved storage *)

(** C1.  The object of a derived class whose category has 92 characters,
    with code 2, context "open config" and description "No such file or
    directory"; [reserve] is granted 136 characters and the next request
    is refused.  The call catches [bad_alloc] while it appends the
    description and returns "std::bad_alloc", but [message_] keeps what
    was appended so far, and the next call returns that text without
    assembling anything. *)
Theorem what_failure_keeps_partial_message :
  let e := @Exception_code_context_description libstdcxx_int32
             long_category 2 "open config" "No such file or directory" in
  caught e refuse_second = Some bad_alloc /\
  what_text e refuse_second = "std::bad_alloc" /\
  chars (message_ (what_object e refuse_second))
    = long_category ++ "[0x00000002]open config " /\
  what_heap e refuse_second = [] /\
  what_text (what_object e refuse_second) (what_heap e refuse_second)
    = long_category ++ "[0x00000002]open config " /\
  Spec.render_object e
    = long_category ++ "[0x00000002]open config No such file or directory".
Proof. vm_compute. repeat split. Qed.

(** C3.  The object of the same class with code 5 and neither context nor
    description: [reserve] is granted 100 characters, and the request made
    by the sixth digit is refused.  After the call [message_] is neither
    empty nor the full rendering: it holds the message up to the fifth
    digit. *)
Theorem cache_invariant_broken :
  let e := @Exception_code libstdcxx_int32 long_category 5 in
  Spec.cache_invariant e /\
  chars (message_ (what_object e refuse_second)) = long_category ++ "[0x00000" /\
  Spec.render_object (what_object e refuse_second) = long_category ++ "[0x00000005]" /\
  ~ Spec.cache_invariant (what_object e refuse_second).
Proof.
  split; [left; reflexivity | split; [reflexivity | split; [reflexivity|]]].
  intros [E | E]; vm_compute in E; discriminate E.
Qed.

(** The two classes of the library have a category of five characters:
    with a 4-byte code their cache is empty or complete after every
    call. *)
Lemma system_category_invariant (e : Exception) (a : allocator) :
  category e = "WIN32" \/ category e = "POSIX" ->
  @Spec.cache_invariant libstdcxx_int32 e ->
  @Spec.cache_invariant libstdcxx_int32 (@what_object libstdcxx_int32 e a).
Proof.
  intros C. apply short_category_invariant.
  destruct C as [-> | ->]; simpl; lia.
Qed.

(** ** The description of a system error *)

Section Buffer.
Import Win32.

Lemma string_snoc (s : string) :
  s = "" \/ exists s0 a, s = s0 ++ String a "".
Proof.
  induction s as [|b s IH]; [now left | right].
  destruct IH as [-> | (s0 & a & ->)].
  - now exists "", b.
  - now exists (String b s0), a.
Qed.

Lemma list_of_snoc (s : string) (a : ascii) :
  list_ascii_of_string (s ++ String a "") = (list_ascii_of_string s ++ [a])%list.
Proof. induction s as [|b s IH]; simpl; [reflexivity | now rewrite IH]. Qed.

Lemma length_list_of (s : string) :
  List.length (list_ascii_of_string s) = String.length s.
Proof. induction s as [|b s IH]; simpl; [reflexivity | now rewrite IH]. Qed.

Lemma strip_trailing_snoc (c a : ascii) (s : string) :
  Spec.strip_trailing c (s ++ String a "")
  = if Ascii.eqb a c then s else s ++ String a "".
Proof.
  induction s as [|b s IH].
  - reflexivity.
  - change (Spec.strip_trailing c (String b s ++ String a ""))
      with (match s ++ String a "" with
            | "" => if Ascii.eqb b c then "" else String b (s ++ String a "")
            | String _ _ => String b (Spec.strip_trailing c (s ++ String a ""))
            end).
    rewrite IH.
    destruct s; simpl; destruct (Ascii.eqb a c); reflexivity.
Qed.

Lemma store_at_length (l r : list ascii) (old c : ascii) :
  store (List.length l) c (l ++ old :: r)%list = (l ++ c :: r)%list.
Proof. induction l as [|b l IH]; simpl; [reflexivity | now rewrite IH]. Qed.

Lemma nth_at_length (l r : list ascii) (x d : ascii) :
  nth (List.length l) (l ++ x :: r)%list d = x.
Proof. induction l as [|b l IH]; simpl; [reflexivity | exact IH]. Qed.

Lemma string_of_buffer_text (s : string) (r : list ascii) :
  ~ In NUL (list_ascii_of_string s) ->
  string_of_buffer (list_ascii_of_string s ++ NUL :: r)%list = s.
Proof.
  induction s as [|b s IH]; simpl; intros NF.
  - reflexivity.
  - destruct (Ascii.eqb_spec b NUL) as [-> | _].
    + exfalso. apply NF. now left.
    + rewrite IH; [reflexivity | intros I; apply NF; now right].
Qed.

Lemma strip_trailing_no_nul (c : ascii) (s : string) :
  ~ In NUL (list_ascii_of_string s) ->
  ~ In NUL (list_ascii_of_string (Spec.strip_trailing c s)).
Proof.
  destruct (string_snoc s) as [-> | (s0 & a & ->)]; [exact (fun NF => NF)|].
  rewrite strip_trailing_snoc.
  destruct (Ascii.eqb a c); [|exact (fun NF => NF)].
  rewrite list_of_snoc. intros NF I. apply NF, in_or_app. now left.
Qed.

(** One step of the trimming, on a buffer that holds [s] and its
    terminator. *)
Lemma cut_trailing_text (c : ascii) (s : string) (r : list ascii) :
  exists r',
    cut_trailing c (String.length s, (list_ascii_of_string s ++ NUL :: r)%list)
    = (String.length (Spec.strip_trailing c s),
       (list_ascii_of_string (Spec.strip_trailing c s) ++ NUL :: r')%list).
Proof.
  destruct (string_snoc s) as [-> | (s0 & a & ->)].
  - exists r. reflexivity.
  - rewrite strip_trailing_snoc. unfold cut_trailing.
    rewrite StringFacts.length_app, list_of_snoc. simpl String.length.
    replace (String.length s0 + 1 - 1) with (List.length (list_ascii_of_string s0))
      by (rewrite length_list_of; lia).
    rewrite <- List.app_assoc. simpl app.
    rewrite nth_at_length.
    replace (0 <? String.length s0 + 1)%nat with true
      by (symmetry; apply Nat.ltb_lt; lia).
    simpl andb.
    destruct (Ascii.eqb a c).
    + exists (NUL :: r). rewrite store_at_length, length_list_of. reflexivity.
    + exists r. rewrite list_of_snoc, <- List.app_assoc, StringFacts.length_app.
      reflexivity.
Qed.

Lemma GetWin32ErrorDescription_normalizes
  (FormatMessageA : error_code_type -> FormatMessageA_result)
  (code : error_code_type) (text : string) :
  ~ In NUL (list_ascii_of_string text) ->
  FormatMessageA code
    = mk_FormatMessageA_result (String.length text)
                               (list_ascii_of_string text ++ [NUL])%list ->
  GetWin32ErrorDescription FormatMessageA code = Spec.normalize_description text.
Proof.
  intros NF R. unfold GetWin32ErrorDescription, Spec.normalize_description.
  rewrite R. simpl fm_length. simpl fm_buffer.
  destruct (String.length text =? 0)%nat eqn:E.
  - apply Nat.eqb_eq, StringFacts.length_zero in E. subst text. reflexivity.
  - destruct (cut_trailing_text LF text []) as (r1 & ->).
    destruct (cut_trailing_text CR (Spec.strip_trailing LF text) r1) as (r2 & ->).
    simpl snd. apply string_of_buffer_text.
    now do 2 apply strip_trailing_no_nul.
Qed.

End Buffer.

(** C4, as stated, fails for the POSIX variant: it stores the text of the
    lookup as it is, line ending included. *)
Lemma posix_description_not_normalized :
  description (Posix.SystemException strerror_with_line_ending 5 "read")
    = "Operation failed." ++ String Win32.CR (String Win32.LF "") /\
  Spec.normalize_description (strerror_with_line_ending 5) = "Operation failed." /\
  description (Posix.SystemException strerror_with_line_ending 5 "read")
    <> Spec.normalize_description (strerror_with_line_ending 5).
Proof.
  split; [reflexivity | split; [reflexivity|]].
  intros E. vm_compute in E. discriminate E.
Qed.

(** C4, amended.  On Windows the constructor stores the text of
    [FormatMessageA] without at most one trailing line feed and then at
    most one trailing carriage return; on Linux and macOS it stores the
    text of [strerror] unchanged. *)
Theorem system_description_by_platform `{Target}
  (FormatMessageA : error_code_type -> Win32.FormatMessageA_result)
  (strerror : error_code_type -> string)
  (code : error_code_type) (ctx text : string) :
  ~ In Win32.NUL (list_ascii_of_string text) ->
  FormatMessageA code
    = Win32.mk_FormatMessageA_result (String.length text)
        (list_ascii_of_string text ++ [Win32.NUL]) ->
  description (Win32.SystemException FormatMessageA code ctx)
    = Spec.normalize_description text /\
  description (Posix.SystemException strerror code ctx) = strerror code.
Proof.
  intros NF R. split; [|reflexivity].
  unfold Win32.SystemException, description. simpl.
  now apply GetWin32ErrorDescription_normalizes.
Qed.

Lemma system_description_by_platform_witness :
  ~ In Win32.NUL (list_ascii_of_string file_not_found_text) /\
  description (Win32.SystemException format_message_sample 2 "CreateFile")
    = "The system cannot find the file specified.".
Proof.
  assert (NF : ~ In Win32.NUL (list_ascii_of_string file_not_found_text)).
  { intros I. vm_compute in I.
    repeat (destruct I as [I | I]; [discriminate I|]). exact I. }
  split; [exact NF|].
  exact (proj1 (system_description_by_platform
                  format_message_sample strerror_with_line_ending
                  2 "CreateFile" file_not_found_text NF eq_refl)).
Defined.

Example carriage_return_only :
  Spec.normalize_description ("failed." ++ String Win32.CR "") = "failed.".
Proof. reflexivity. Qed.

Example one_of_each :
  Spec.normalize_description
    ("failed." ++ String Win32.LF (String Win32.CR (String Win32.LF "")))
  = "failed." ++ String Win32.LF "".
Proof. reflexivity. Qed.

(** C8.  When [FormatMessageA] returns 0, the constructor still yields the
    object, with the code and the context it was given and an empty
    description. *)
Theorem missing_description_is_empty `{Target}
  (FormatMessageA : error_code_type -> Win32.FormatMessageA_result)
  (code : error_code_type) (ctx : string) :
  Win32.fm_length (FormatMessageA code) = 0 ->
  Win32.SystemException FormatMessageA code ctx
    = Exception_code_context_description "WIN32" code ctx "" /\
  description (Win32.SystemException FormatMessageA code ctx) = "" /\
  error_code (Win32.SystemException FormatMessageA code ctx) = code /\
  context (Win32.SystemException FormatMessageA code ctx) = ctx.
Proof.
  intros L.
  assert (D : Win32.GetWin32ErrorDescription FormatMessageA code = "").
  { unfold Win32.GetWin32ErrorDescription. now rewrite L. }
  unfold Win32.SystemException, description, error_code, context.
  rewrite D. repeat split.
Qed.

Lemma missing_description_is_empty_witness :
  Win32.fm_length (format_message_sample 317) = 0 /\
  description (Win32.SystemException format_message_sample 317 "ReadFile") = "" /\
  what_text (Win32.SystemException format_message_sample 317 "ReadFile") []
    = "WIN32[0x0000013D]ReadFile".
Proof.
  split; [reflexivity | split; [|reflexivity]].
  exact (proj1 (proj2 (missing_description_is_empty
                         format_message_sample 317 "ReadFile" eq_refl))).
Defined.

(** * Further properties of the code *)

(** ** The hexadecimal segment identifies the code *)

Section HexRoundTrip.

Lemma digit_value_hex_digit (d : Z) :
  (0 <= d < 16)%Z -> digit_value (Spec.hex_digit d) = d.
Proof.
  intros R. rewrite <- (Z2Nat.id d) at 2 by lia.
  unfold Spec.hex_digit.
  assert (B : Z.to_nat d < 16) by lia.
  generalize dependent (Z.to_nat d). intros n B.
  do 16 (destruct n as [|n]; [reflexivity|]).
  lia.
Qed.

Lemma hex_value_snoc (s : string) (c : ascii) :
  hex_value (s ++ String c "") = (hex_value s * 16 + digit_value c)%Z.
Proof.
  unfold hex_value. rewrite list_of_snoc, fold_left_app. reflexivity.
Qed.

Lemma hex_value_fixed_width (w : nat) : forall v,
  hex_value (Spec.hex_fixed_width w v) = (v mod 16 ^ Z.of_nat w)%Z.
Proof.
  induction w as [|w IH]; intros v.
  - simpl. now rewrite Z.mod_1_r.
  - rewrite Nat2Z.inj_succ, Z.pow_succ_r by lia.
    rewrite Z.rem_mul_r by lia.
    cbn [Spec.hex_fixed_width].
    rewrite hex_value_snoc, IH, digit_value_hex_digit
      by (apply Z.mod_pos_bound; lia).
    lia.
Qed.

End HexRoundTrip.

(** X1.  Reading the hexadecimal segment back as a number gives the code
    modulo [2 ^ (8 * sizeof(code))]; so two codes have the same segment
    exactly when they agree modulo that power, and a [DWORD] is read back
    as it is. *)
Theorem hex_segment_round_trip `{Target} (code code' : error_code_type) :
  hex_value (hex_segment code) = (code mod 2 ^ (8 * Z.of_nat sizeof_error_code))%Z /\
  (hex_segment code = hex_segment code' <->
   (code mod 2 ^ (8 * Z.of_nat sizeof_error_code)
    = code' mod 2 ^ (8 * Z.of_nat sizeof_error_code))%Z).
Proof.
  assert (V : forall c,
    hex_value (hex_segment c) = (c mod 2 ^ (8 * Z.of_nat sizeof_error_code))%Z).
  { intros c. rewrite hex_segment_bytes, hex_bytes_fixed_width,
      hex_value_fixed_width. now rewrite sixteen_pow. }
  split; [apply V | split].
  - intros E. rewrite <- !V. now rewrite E.
  - intros E. rewrite !hex_segment_bytes, !hex_bytes_fixed_width.
    rewrite <- (hex_fixed_width_mod _ code), <- (hex_fixed_width_mod _ code').
    rewrite !sixteen_pow. now rewrite E.
Qed.

Example hex_value_of_dword :
  hex_value (@hex_segment libstdcxx_int32 3221225477) = 3221225477%Z.
Proof. reflexivity. Qed.

(** ** The cache holds a beginning of the message *)

Section Progress.
Context `{Target}.

Lemma progresses_ret : progresses (ret tt) "".
Proof.
  intros st. exists "", "". simpl.
  now rewrite StringFacts.app_empty_r.
Qed.

Lemma progresses_reserve (n : nat) : progresses (message_reserve n) "".
Proof.
  intros st. exists "", "". unfold message_reserve, on_message, reserve.
  destruct (n <=? capacity (message_ (this st)))%nat;
    [|destruct (request_growth (heap st)) as [[u|ex] a']];
    simpl; now rewrite StringFacts.app_empty_r.
Qed.

Lemma progresses_append (t : string) : progresses (message_append t) t.
Proof.
  intros st. unfold message_append, on_message, append.
  destruct (size (message_ (this st)) + String.length t
            <=? capacity (message_ (this st)))%nat;
    [|destruct (request_growth (heap st)) as [[u|ex] a']]; simpl.
  - exists t, "". now rewrite StringFacts.app_empty_r.
  - exists t, "". now rewrite StringFacts.app_empty_r.
  - exists "", t. now rewrite StringFacts.app_empty_r.
Qed.

Lemma progresses_bind (m1 m2 : Cxx unit) (t1 t2 : string) :
  progresses m1 t1 -> progresses m2 t2 -> progresses (m1 ;; m2) (t1 ++ t2).
Proof.
  intros P1 P2 st. unfold bind.
  destruct (P1 st) as (p1 & s1 & T1 & C1 & O1).
  destruct (m1 st) as [[u|ex] st1]; simpl in *.
  - subst s1. rewrite StringFacts.app_empty_r in T1. subst p1.
    destruct (P2 st1) as (p2 & s2 & T2 & C2 & O2).
    exists (t1 ++ p2), s2. repeat split.
    + rewrite T2. symmetry. apply StringFacts.app_assoc.
    + rewrite C2, C1. apply StringFacts.app_assoc.
    + exact O2.
  - exists p1, (s1 ++ t2). repeat split.
    + rewrite T1. apply StringFacts.app_assoc.
    + exact C1.
Qed.

Lemma progresses_hex_loop (n : nat) (code : error_code_type) :
  progresses (hex_loop n code) (Spec.hex_bytes n code).
Proof.
  induction n as [|n IH].
  - exact progresses_ret.
  - cbn [hex_loop Spec.hex_bytes].
    rewrite shifted_byte, high_nibble, low_nibble, !hex_map_at_digit.
    apply (progresses_bind _ _ (String _ "") (String _ _));
      [apply progresses_append|].
    apply (progresses_bind _ _ (String _ "") _);
      [apply progresses_append | exact IH].
Qed.

Lemma progresses_assemble (e : Exception) :
  progresses (assemble e) (Spec.render_object e).
Proof.
  unfold assemble, Spec.render_object, Spec.render.
  change (category e ++ "[0x" ++ _) with
    ("" ++ category e ++ "[0x"
        ++ Spec.hex_fixed_width (2 * sizeof_error_code) (error_code_ e) ++ "]"
        ++ context_ e
        ++ (if (String.length (description_ e) =? 0)%nat then ""
            else " " ++ description_ e)).
  rewrite <- hex_bytes_fixed_width.
  repeat (apply progresses_bind;
          [first [apply progresses_reserve | apply progresses_append
                 | apply progresses_hex_loop] |]).
  apply progresses_bind.
  - destruct (String.length (context_ e) =? 0)%nat eqn:E.
    + apply Nat.eqb_eq, StringFacts.length_zero in E. rewrite E.
      apply progresses_ret.
    + apply progresses_append.
  - destruct (String.length (description_ e) =? 0)%nat.
    + apply progresses_ret.
    + apply progresses_bind; apply progresses_append.
Qed.

Lemma render_object_same_fields (e e' : Exception) :
  same_fields e e' -> Spec.render_object e' = Spec.render_object e.
Proof.
  intros (F1 & F2 & F3 & F4). unfold Spec.render_object.
  now rewrite F1, F2, F3, F4.
Qed.

Lemma what_keeps_prefix (e : Exception) (a : allocator) :
  cache_is_prefix e -> cache_is_prefix (what_object e a).
Proof.
  intros P. unfold cache_is_prefix.
  rewrite (render_object_same_fields _ _ (what_same_fields e a)).
  unfold what_object, what.
  destruct (empty (message_ e)) eqn:E; [|exact P].
  destruct (progresses_assemble e (mk_frame e a)) as (p & s & T & C & _).
  simpl in C. rewrite (empty_chars _ E) in C. simpl in C.
  exists s.
  destruct (assemble e (mk_frame e a)) as [[u|ex] st]; simpl in *;
    now rewrite C.
Qed.

End Progress.

(** X2.  Whatever the allocator does, and however often [what()] is
    called, an object whose [message_] holds a beginning of its full
    rendering (as every newly constructed object does, its [message_]
    being empty) keeps holding a beginning of it: an interrupted assembly
    may leave the message short, never with other characters in it. *)
Theorem cache_prefix_kept `{Target} (n : nat) (e : Exception) (a : allocator) :
  cache_is_prefix e -> cache_is_prefix (fst (what_calls n e a)).
Proof.
  revert e a. induction n as [|n IH]; intros e a P; simpl.
  - exact P.
  - apply IH. now apply what_keeps_prefix.
Qed.

Lemma cache_prefix_kept_witness :
  cache_is_prefix (Exception_code long_category 5) /\
  cache_is_prefix (fst (what_calls 3 (Exception_code long_category 5) refuse_second)).
Proof.
  assert (P : cache_is_prefix (Exception_code long_category 5)).
  { exists (Spec.render_object (Exception_code long_category 5)). reflexivity. }
  split; [exact P|].
  exact (cache_prefix_kept 3 (Exception_code long_category 5) refuse_second P).
Defined.

(** ** Calls that fail, and calls after a call *)

Section Calls.
Context `{Target}.


Lemma request_growth_tail (a : allocator) : snd (request_growth a) = tl a.
Proof. destruct a as [|[e|] rest]; reflexivity. Qed.

Lemma what_calls_cached (n : nat) (e : Exception) (a : allocator) :
  empty (message_ e) = false -> what_calls n e a = (e, a).
Proof.
  intros E. induction n as [|n IH]; simpl; [reflexivity|].
  unfold what_object, what_heap. rewrite (what_cached e a E). exact IH.
Qed.

Lemma completed_cache_not_empty (e : Exception) (a : allocator) :
  empty (message_ e) = true -> caught e a = None ->
  empty (message_ (what_object e a)) = false.
Proof.
  intros E C. destruct (what_completed e a E C) as (_ & M).
  unfold empty, size. rewrite M. apply Nat.eqb_neq.
  pose proof (render_not_empty (category e) (error_code_ e)
                (context_ e) (description_ e)) as P.
  unfold Spec.render_object. lia.
Qed.

End Calls.



(** X4.  Under the same condition on the category a call of [what()] asks
    the allocator at most once, for the storage it reserves: after the
    call the script of the allocator is the one before, or that one
    without its first answer. *)
Theorem what_single_allocation `{Target} (e : Exception) (a : allocator) :
  String.length (category e) + 2 * sizeof_error_code + 5 <= 100 ->
  what_heap e a = a \/ what_heap e a = tl a.
Proof.
  intros Short. unfold what_heap, what.
  destruct (empty (message_ e)) eqn:E; [|now left].
  pose proof (render_length_bound e) as B.
  assert (Z0 : size (message_ e) = 0) by (now apply Nat.eqb_eq in E).
  change (assemble e) with
    (message_reserve (String.length (description_ e)
                      + String.length (context_ e) + 100) ;; after_reserve e).
  unfold bind, message_reserve, on_message, reserve. simpl.
  destruct (String.length (description_ e) + String.length (context_ e) + 100
            <=? capacity (message_ e))%nat eqn:L.
  - apply Nat.leb_le in L. simpl.
    rewrite fits_after_reserve by (simpl; lia). now left.
  - pose proof (request_growth_tail a) as T.
    destruct (request_growth a) as [[u|ex'] a']; simpl in *; [|now right].
    pose proof (grown_capacity_fits (capacity (message_ e))
                  (String.length (description_ e)
                   + String.length (context_ e) + 100)) as G.
    rewrite fits_after_reserve by (unfold size in *; simpl; lia).
    now right.
Qed.

Lemma what_single_allocation_witness :
  String.length "POSIX" + 2 * sizeof_error_code + 5 <= 100 /\
  what_heap (Exception_code_context "POSIX" 13 "open")
            [None; Some bad_alloc; Some bad_alloc]
    = [Some bad_alloc; Some bad_alloc].
Proof.
  assert (S : String.length "POSIX" + 2 * sizeof_error_code + 5 <= 100)
    by (simpl; lia).
  split; [exact S|].
  destruct (what_single_allocation
              (Exception_code_context "POSIX" 13 "open")
              [None; Some bad_alloc; Some bad_alloc] S) as [E | E].
  - vm_compute in E. discriminate E.
  - exact E.
Defined.

(** X5.  Once a call has completed without catching an exception, the
    message is final: any number of later calls, with any allocator,
    leave the object and the allocator untouched, and each returns the
    text of the completed call. *)
Theorem completed_call_is_final `{Target}
  (n : nat) (e : Exception) (a a' : allocator) :
  caught e a = None ->
  what_calls n (what_object e a) a' = (what_object e a, a') /\
  what_text (what_object e a) a' = what_text e a.
Proof.
  intros C.
  assert (NE : empty (message_ (what_object e a)) = false).
  { destruct (empty (message_ e)) eqn:E.
    - now apply completed_cache_not_empty.
    - unfold what_object. now rewrite (what_cached e a E). }
  split; [now apply what_calls_cached|].
  unfold what_text at 1. rewrite (what_cached _ a' NE). simpl.
  destruct (empty (message_ e)) eqn:E.
  - destruct (what_completed e a E C) as (T & M). unfold c_str. now rewrite M, T.
  - unfold what_object, what_text. now rewrite (what_cached e a E).
Qed.

Lemma completed_call_is_final_witness :
  caught (Exception_code_context "WIN32" 5 "CreateFile") [] = None /\
  what_text (what_object (Exception_code_context "WIN32" 5 "CreateFile") [])
            [Some bad_alloc; Some length_error]
    = "WIN32[0x00000005]CreateFile".
Proof.
  split; [reflexivity|].
  exact (proj2 (completed_call_is_final 2
                  (Exception_code_context "WIN32" 5 "CreateFile") []
                  [Some bad_alloc; Some length_error] eq_refl)).
Defined.

(** ** More on the description of a system error *)

Section Description.
Import Win32.

Lemma string_of_buffer_no_nul (buffer : list ascii) :
  ~ In NUL (list_ascii_of_string (string_of_buffer buffer)).
Proof.
  induction buffer as [|c rest IH]; simpl.
  - intros [].
  - destruct (Ascii.eqb_spec c NUL) as [-> | N]; simpl.
    + intros [].
    + intros [E | I]; [now apply N | now apply IH].
Qed.

Lemma strip_trailing_cases (c : ascii) (s : string) :
  Spec.strip_trailing c s = s \/ s = Spec.strip_trailing c s ++ String c "".
Proof.
  destruct (string_snoc s) as [-> | (s0 & a & ->)]; [now left|].
  rewrite strip_trailing_snoc.
  destruct (Ascii.eqb_spec a c) as [-> | _]; [now right | now left].
Qed.

End Description.

(** X6.  Whatever [FormatMessageA] hands back, the description of the
    Windows [SystemException] holds no NUL character: the text is read
    from the buffer up to the first NUL. *)
Theorem win32_description_no_nul `{Target}
  (FormatMessageA : error_code_type -> Win32.FormatMessageA_result)
  (code : error_code_type) (ctx : string) :
  ~ In Win32.NUL
      (list_ascii_of_string
         (description (Win32.SystemException FormatMessageA code ctx))).
Proof.
  unfold Win32.SystemException, description. simpl.
  unfold Win32.GetWin32ErrorDescription.
  destruct (Win32.fm_length (FormatMessageA code) =? 0)%nat.
  - intros [].
  - apply string_of_buffer_no_nul.
Qed.

(** X7.  The Windows constructor removes nothing but the line ending: the
    text of [FormatMessageA] is the stored description followed by
    nothing, by LF, by CR, or by CR LF. *)
Theorem win32_description_removed_suffix `{Target}
  (FormatMessageA : error_code_type -> Win32.FormatMessageA_result)
  (code : error_code_type) (ctx text : string) :
  ~ In Win32.NUL (list_ascii_of_string text) ->
  FormatMessageA code
    = Win32.mk_FormatMessageA_result (String.length text)
        (list_ascii_of_string text ++ [Win32.NUL]) ->
  exists suffix : string,
    text = description (Win32.SystemException FormatMessageA code ctx) ++ suffix /\
    (suffix = "" \/ suffix = String Win32.LF "" \/ suffix = String Win32.CR "" \/
     suffix = String Win32.CR (String Win32.LF "")).
Proof.
  intros NF R. unfold Win32.SystemException, description. simpl.
  rewrite (GetWin32ErrorDescription_normalizes FormatMessageA code text NF R).
  unfold Spec.normalize_description.
  destruct (strip_trailing_cases Win32.LF text) as [E1 | E1];
    destruct (strip_trailing_cases Win32.CR (Spec.strip_trailing Win32.LF text))
      as [E2 | E2].
  - exists "". rewrite E2, E1, StringFacts.app_empty_r. auto.
  - exists (String Win32.CR ""). rewrite <- E2, E1. auto.
  - exists (String Win32.LF ""). rewrite E2. auto.
  - exists (String Win32.CR (String Win32.LF "")). split; [|auto].
    rewrite E1 at 1. rewrite E2 at 1. now rewrite StringFacts.app_assoc.
Qed.

Lemma win32_description_removed_suffix_witness :
  ~ In Win32.NUL (list_ascii_of_string file_not_found_text) /\
  exists suffix : string,
    file_not_found_text
    = description (Win32.SystemException format_message_sample 2 "CreateFile")
        ++ suffix /\
    (suffix = "" \/ suffix = String Win32.LF "" \/ suffix = String Win32.CR "" \/
     suffix = String Win32.CR (String Win32.LF "")).
Proof.
  assert (NF : ~ In Win32.NUL (list_ascii_of_string file_not_found_text)).
  { intros I. vm_compute in I.
    repeat (destruct I as [I | I]; [discriminate I|]). exact I. }
  split; [exact NF|].
  exact (win32_description_removed_suffix
           format_message_sample 2 "CreateFile" file_not_found_text NF eq_refl).
Defined.

(** X8.  On Windows, when no allocation is refused, [what()] on a
    [SystemException] built from a code and a context returns ["WIN32[0x"],
    the [2 * sizeof(code)] digits of the code, ["]"], the context and, unless
    the trimmed text of [FormatMessageA] is empty, a space and that
    text. *)
Theorem win32_system_message `{Target}
  (FormatMessageA : error_code_type -> Win32.FormatMessageA_result)
  (code : error_code_type) (ctx text : string) (a : allocator) :
  ~ In Win32.NUL (list_ascii_of_string text) ->
  FormatMessageA code
    = Win32.mk_FormatMessageA_result (String.length text)
        (list_ascii_of_string text ++ [Win32.NUL]) ->
  never_fails a ->
  what_text (Win32.SystemException FormatMessageA code ctx) a
  = "WIN32[0x" ++ Spec.hex_fixed_width (2 * sizeof_error_code) code ++ "]" ++ ctx
      ++ (if (String.length (Spec.normalize_description text) =? 0)%nat then ""
          else " " ++ Spec.normalize_description text).
Proof.
  intros NF R G.
  destruct (what_completed (Win32.SystemException FormatMessageA code ctx) a
              eq_refl (never_fails_not_caught _ a G)) as (W & _).
  rewrite W. unfold Spec.render_object, Spec.render, Win32.SystemException. simpl.
  now rewrite (GetWin32ErrorDescription_normalizes FormatMessageA code text NF R).
Qed.

Lemma win32_system_message_witness :
  ~ In Win32.NUL (list_ascii_of_string file_not_found_text) /\
  never_fails [None] /\
  what_text (Win32.SystemException format_message_sample 2 "CreateFile") [None]
  = "WIN32[0x00000002]CreateFile The system cannot find the file specified.".
Proof.
  assert (NF : ~ In Win32.NUL (list_ascii_of_string file_not_found_text)).
  { intros I. vm_compute in I.
    repeat (destruct I as [I | I]; [discriminate I|]). exact I. }
  assert (G : never_fails [None]) by (repeat constructor).
  split; [exact NF | split; [exact G|]].
  exact (win32_system_message format_message_sample 2 "CreateFile"
           file_not_found_text [None] NF eq_refl G).
Defined.

(** X9.  On Linux and macOS, when no allocation is refused, [what()] on a
    [SystemException] returns ["POSIX[0x"], the digits of the code, ["]"],
    the context and, unless [strerror] gave an empty text, a space and the
    text of [strerror] as it is. *)
Theorem posix_system_message `{Target}
  (strerror : error_code_type -> string)
  (ec : error_code_type) (cnt : string) (a : allocator) :
  never_fails a ->
  what_text (Posix.SystemException strerror ec cnt) a
  = "POSIX[0x" ++ Spec.hex_fixed_width (2 * sizeof_error_code) ec ++ "]" ++ cnt
      ++ (if (String.length (strerror ec) =? 0)%nat then ""
          else " " ++ strerror ec).
Proof.
  intros G.
  destruct (what_completed (Posix.SystemException strerror ec cnt) a
              eq_refl (never_fails_not_caught _ a G)) as (W & _).
  exact W.
Qed.

Lemma posix_system_message_witness :
  never_fails [None; None] /\
  what_text (Posix.SystemException (fun _ => "No such file or directory")
                                   2 "open config") [None; None]
  = "POSIX[0x00000002]open config No such file or directory".
Proof.
  assert (G : never_fails [None; None]) by (repeat constructor).
  split; [exact G|].
  exact (posix_system_message (fun _ => "No such file or directory")
           2 "open config" [None; None] G).
Defined.
